(** * cuco bucket storage: owner, device handle, sentinel iterator

    A shallow embedding of [include/cuco/detail/storage/bucket_storage.inl].

    Device memory is a finite map from byte addresses to slot values; a
    [bucket_type*] and a [value_type*] are both byte addresses, and they
    differ in the scale of their pointer arithmetic.  Host calls pass the
    device state explicitly.  A stream is a FIFO queue of submitted work
    that runs when the stream is waited on. *)

From Stdlib Require Import ZArith Lia.
From stdpp Require Import base numbers option list gmap.

Local Open Scope Z_scope.

(** ** Typed pointers *)

(** [bucket_type*] *)
Record bucket_ptr := BucketPtr { bucket_addr : Z }.

(** [value_type*] *)
Record slot_ptr := SlotPtr { slot_addr : Z }.

(** [reinterpret_cast<value_type*>(p)]: the address is kept, the pointee type
    changes. *)
Definition reinterpret_cast_value_ptr (p : bucket_ptr) : slot_ptr :=
  SlotPtr (bucket_addr p).

(** [reinterpret_cast<bucket_type*>(p)] on an untyped address *)
Definition reinterpret_cast_bucket_ptr (a : Z) : bucket_ptr := BucketPtr a.

(** [__builtin_assume_aligned(p, align)] returns [p]; the behaviour is
    undefined ([None]) when [p] is not a multiple of [align]. *)
Definition builtin_assume_aligned (p : bucket_ptr) (align : Z) : option Z :=
  if decide (bucket_addr p mod align = 0) then Some (bucket_addr p) else None.

(** ** The iterator of [bucket_storage_ref] *)

(** [struct iterator { value_type* current_{}; }] *)
Record iterator := Iterator { current_ : slot_ptr }.

(** [using const_iterator = iterator const] *)
Definition const_iterator := iterator.

(** [operator->]: the pointer to the current slot *)
Definition iterator_arrow (it : iterator) : slot_ptr := current_ it.

(** [operator==]: [lhs.current_ == rhs.current_] *)
Definition iterator_eq (lhs rhs : iterator) : bool :=
  bool_decide (slot_addr (current_ lhs) = slot_addr (current_ rhs)).

(** [operator!=]: [not(lhs == rhs)] *)
Definition iterator_ne (lhs rhs : iterator) : bool :=
  negb (iterator_eq lhs rhs).

(** The two increment operators are not embedded: their bodies hold the
    declaration [static_assert("Un-incrementable input iterator");] and no
    [return], so they compute nothing; whether a use of them compiles is a
    matter for the C++ front end. *)

(** ** Launch geometry *)

(** Modelled from the spec: [cuco::detail::grid_size] of
    cuco/detail/utility/cuda.hpp is not part of the sources at hand.  The
    grid is sized so that every thread covers about [stride] items: the
    number of blocks is [cg_size * num] divided by [stride * block_size],
    rounded up (C++ integer division truncates). *)
Definition int_div_ceil (dividend divisor : Z) : Z :=
  (dividend + divisor - 1) ÷ divisor.

Definition grid_size (num cg_size stride block_size : Z) : Z :=
  int_div_ceil (cg_size * num) (stride * block_size).

(** ** What an instantiation fixes *)

(** [sizeof_T] is [sizeof(value_type)], [BucketSize] the template parameter
    [int32_t BucketSize], and [default_block_size] the constant
    [cuco::detail::default_block_size()] of cuda.hpp. *)
Class storage_params := StorageParams {
  sizeof_T : Z;
  BucketSize : Z;
  default_block_size : Z
}.

(** A call made on an allocator. *)
Inductive alloc_event (Allocator : Type) :=
  | Allocate (a : Allocator) (n : Z) (p : bucket_ptr)
  | Deallocate (a : Allocator) (p : bucket_ptr) (n : Z).
Arguments Allocate {Allocator} a n p.
Arguments Deallocate {Allocator} a p n.

(** The allocator interface: [allocate_result a n calls] is the pointer
    [a.allocate(n)] hands out after the calls made so far, [None] when the
    allocation fails. *)
Class allocator_model (Allocator : Type) := AllocatorModel {
  allocate_result : Allocator → Z → list (alloc_event Allocator) → option bucket_ptr
}.

Section bucket_storage.

(** [T] is [value_type], the slot type; [Allocator] the allocator type. *)
Context {T Allocator : Type} {params : storage_params}
  {alloc : allocator_model Allocator}.

(** ** Pointer arithmetic *)

(** [sizeof(bucket_type)]: a bucket is an array of [BucketSize] slots. *)
Definition sizeof_bucket : Z := sizeof_T * BucketSize.

(** [p + n] on a [bucket_type*] *)
Definition bucket_ptr_add (p : bucket_ptr) (n : Z) : bucket_ptr :=
  BucketPtr (bucket_addr p + n * sizeof_bucket).

(** [p + n] on a [value_type*] *)
Definition slot_ptr_add (p : slot_ptr) (n : Z) : slot_ptr :=
  SlotPtr (slot_addr p + n * sizeof_T).

(** Address of slot [k] of the bucket [buckets + idx]. *)
Definition bucket_slot_addr (buckets : bucket_ptr) (idx k : Z) : Z :=
  bucket_addr (bucket_ptr_add buckets idx) + k * sizeof_T.

(** Address of the [i]-th slot counted from the base pointer. *)
Definition nth_slot_addr (buckets : bucket_ptr) (i : Z) : Z :=
  slot_addr (slot_ptr_add (reinterpret_cast_value_ptr buckets) i).

(** One past the last slot of an array of [n] buckets starting at [p]: the
    address right after slot [BucketSize - 1] of bucket [n - 1]. *)
Definition one_past_last_slot (p : bucket_ptr) (n : Z) : Z :=
  bucket_slot_addr p (n - 1) (BucketSize - 1) + sizeof_T.

(** ** The common base of owner and handle *)

(** Modelled from the spec: [detail::bucket_storage_base] of
    cuco/detail/storage/storage_base.cuh is not part of the sources at
    hand.  It stores the extent; the extent converts to the number of
    buckets, and the capacity is the number of slots,
    [num_buckets * BucketSize]. *)
Record bucket_storage_base := BucketStorageBase { extent_ : Z }.

Definition num_buckets (b : bucket_storage_base) : Z := extent_ b.
Definition capacity (b : bucket_storage_base) : Z := num_buckets b * BucketSize.
Definition bucket_extent (b : bucket_storage_base) : Z := extent_ b.

(** ** Device state *)

(** [kernel<<<grid, block, 0, stream>>>(buckets, n, value)] *)
Record kernel_launch := KernelLaunch {
  launch_grid : Z;
  launch_block : Z;
  launch_buckets : bucket_ptr;
  launch_n : Z;
  launch_value : T
}.

(** Work queued on a stream: a launch of the initialization kernel, or
    anything else a caller has submitted. *)
Inductive work :=
  | InitializeKernel (l : kernel_launch)
  | ForeignWork (f : gmap Z T → gmap Z T).

Record device := Device {
  heap : gmap Z T;
  streams : gmap N (list work);
  alloc_trace : list (alloc_event Allocator)
}.

(** [iterator::operator*]: the slot [current_] points to, read through the
    reference it returns. *)
Definition iterator_deref (it : iterator) (h : gmap Z T) : option T :=
  h !! slot_addr (current_ it).

(** Work submitted to [stream] that has not run yet, oldest first. *)
Definition pending (d : device) (stream : N) : list work :=
  default [] (streams d !! stream).

(** ** The initialization kernel *)

(** Modelled from the spec: the kernel [detail::initialize] of
    cuco/detail/storage/kernels.cuh is not part of the sources at hand.  It
    is a grid-stride fill: the thread with global id [idx] sets every slot of
    the buckets [idx], [idx + loop_stride], [idx + 2 * loop_stride], ...
    below [n], where [loop_stride] is the total number of threads. *)
Definition bucket_slots (buckets : bucket_ptr) (idx : Z) : list Z :=
  bucket_slot_addr buckets idx <$> seqZ 0 BucketSize.

Fixpoint initialize_thread (fuel : nat) (loop_stride n : Z)
    (buckets : bucket_ptr) (idx : Z) : list Z :=
  match fuel with
  | O => []
  | S fuel' =>
      if decide (idx < n)
      then bucket_slots buckets idx
             ++ initialize_thread fuel' loop_stride n buckets (idx + loop_stride)
      else []
  end.

(** [blockDim.x * blockIdx.x + threadIdx.x] *)
Definition global_thread_id (l : kernel_launch) (blockIdx threadIdx : Z) : Z :=
  launch_block l * blockIdx + threadIdx.

(** [gridDim.x * blockDim.x] *)
Definition grid_stride (l : kernel_launch) : Z :=
  launch_grid l * launch_block l.

(** The addresses one launch stores to, thread after thread.  A thread's
    index grows by [loop_stride >= 1] per round and stops at [n], so
    [Z.to_nat n] rounds of fuel are never used up. *)
Definition kernel_writes (l : kernel_launch) : list Z :=
  blockIdx ← seqZ 0 (launch_grid l);
  threadIdx ← seqZ 0 (launch_block l);
  initialize_thread (Z.to_nat (launch_n l)) (grid_stride l) (launch_n l)
    (launch_buckets l) (global_thread_id l blockIdx threadIdx).

(** Stores of one value, in the order given. *)
Definition store_all (value : T) (addrs : list Z) (h : gmap Z T) : gmap Z T :=
  foldl (λ h a, <[a := value]> h) h addrs.

Definition run_kernel (l : kernel_launch) (h : gmap Z T) : gmap Z T :=
  store_all (launch_value l) (kernel_writes l) h.

Definition run_work (h : gmap Z T) (w : work) : gmap Z T :=
  match w with
  | InitializeKernel l => run_kernel l h
  | ForeignWork f => f h
  end.

(** ** Streams *)

(** The launch statement: the kernel is appended to the stream's queue and
    the host goes on. *)
Definition launch (l : kernel_launch) (stream : N) (d : device) : device :=
  {| heap := heap d;
     streams := <[stream := pending d stream ++ [InitializeKernel l]]> (streams d);
     alloc_trace := alloc_trace d |}.

(** [stream.wait()]: blocks until all the work queued on [stream] has run. *)
Definition stream_wait (stream : N) (d : device) : device :=
  {| heap := foldl run_work (heap d) (pending d stream);
     streams := delete stream (streams d);
     alloc_trace := alloc_trace d |}.

(** ** Allocator *)

(** [a.allocate(n)] *)
Definition allocator_allocate (a : Allocator) (n : Z) (d : device)
    : option (bucket_ptr * device) :=
  p ← allocate_result a n (alloc_trace d);
  Some (p, {| heap := heap d;
              streams := streams d;
              alloc_trace := alloc_trace d ++ [Allocate a n p] |}).

(** [a.deallocate(p, n)] *)
Definition allocator_deallocate (a : Allocator) (p : bucket_ptr) (n : Z)
    (d : device) : device :=
  {| heap := heap d;
     streams := streams d;
     alloc_trace := alloc_trace d ++ [Deallocate a p n] |}.

(** Modelled from the spec: the deleter type of [bucket_deleter_] is not part
    of the sources at hand.  It holds a count and an allocator, and its call
    operator deallocates that many buckets with that allocator. *)
Record custom_deleter := CustomDeleter {
  size_ : Z;
  deleter_allocator_ : Allocator
}.

Definition custom_deleter_call (del : custom_deleter) (p : bucket_ptr)
    (d : device) : device :=
  allocator_deallocate (deleter_allocator_ del) p (size_ del) d.

(** [std::unique_ptr<bucket_type, custom_deleter>]: the pointer and a copy
    of the deleter. *)
Record unique_ptr := UniquePtr {
  get : bucket_ptr;
  get_deleter : custom_deleter
}.

(** [~unique_ptr()]: the deleter runs unless the pointer is null. *)
Definition unique_ptr_destroy (u : unique_ptr) (d : device) : device :=
  if decide (bucket_addr (get u) = 0) then d
  else custom_deleter_call (get_deleter u) (get u) d.

(** ** [bucket_storage], the owner *)

Record bucket_storage := BucketStorage {
  storage_base : bucket_storage_base;
  allocator_ : Allocator;
  bucket_deleter_ : custom_deleter;
  buckets_ : unique_ptr
}.

(** [bucket_storage(Extent size, Allocator const& allocator)]: the members
    are initialized in this order; a failing [allocate] leaves no object. *)
Definition bucket_storage_new (size : Z) (allocator : Allocator) (d : device)
    : option (bucket_storage * device) :=
  let base := BucketStorageBase size in
  let allocator_ := allocator in
  let bucket_deleter_ := CustomDeleter (capacity base) allocator_ in
  '(p, d') ← allocator_allocate allocator_ (capacity base) d;
  Some (BucketStorage base allocator_ bucket_deleter_ (UniquePtr p bucket_deleter_),
        d').

(** The implicit destructor: [buckets_] is the only member with one. *)
Definition bucket_storage_destroy (s : bucket_storage) (d : device) : device :=
  unique_ptr_destroy (buckets_ s) d.

(** [bucket_storage::data()] *)
Definition bucket_storage_data (s : bucket_storage) : bucket_ptr :=
  get (buckets_ s).

(** [bucket_storage::allocator()] *)
Definition bucket_storage_allocator (s : bucket_storage) : Allocator :=
  allocator_ s.

(** ** [bucket_storage_ref], the device handle *)

Record bucket_storage_ref := BucketStorageRef {
  ref_base : bucket_storage_base;
  ref_buckets_ : bucket_ptr
}.

(** [bucket_storage_ref(Extent size, bucket_type* buckets)] *)
Definition bucket_storage_ref_new (size : Z) (buckets : bucket_ptr)
    : bucket_storage_ref :=
  BucketStorageRef (BucketStorageBase size) buckets.

(** [bucket_storage::ref()]: [ref_type{this->bucket_extent(), this->data()}] *)
Definition bucket_storage_ref_of (s : bucket_storage) : bucket_storage_ref :=
  bucket_storage_ref_new (bucket_extent (storage_base s)) (bucket_storage_data s).

(** [bucket_storage_ref::data()] and [bucket_storage_ref::data() const] *)
Definition bucket_storage_ref_data (r : bucket_storage_ref) : bucket_ptr :=
  ref_buckets_ r.

Definition bucket_storage_ref_data_const (r : bucket_storage_ref) : bucket_ptr :=
  ref_buckets_ r.

(** [bucket_storage_ref::end()] and [bucket_storage_ref::end() const] *)
Definition bucket_storage_ref_end (r : bucket_storage_ref) : iterator :=
  Iterator (reinterpret_cast_value_ptr
              (bucket_ptr_add (bucket_storage_ref_data r) (capacity (ref_base r)))).

Definition bucket_storage_ref_end_const (r : bucket_storage_ref) : const_iterator :=
  Iterator (reinterpret_cast_value_ptr
              (bucket_ptr_add (bucket_storage_ref_data_const r)
                 (capacity (ref_base r)))).

(** Loading a bucket by value: its [BucketSize] slots in order.  A slot that
    was never written has no value to load. *)
Definition load_bucket (h : gmap Z T) (p : bucket_ptr) : option (list T) :=
  mapM (λ k, h !! (bucket_addr p + k * sizeof_T)) (seqZ 0 BucketSize).

(** [bucket_storage_ref::operator[](index) const] *)
Definition bucket_storage_ref_index (r : bucket_storage_ref) (index : Z)
    (h : gmap Z T) : option (list T) :=
  a ← builtin_assume_aligned
         (bucket_ptr_add (bucket_storage_ref_data_const r) index)
         (sizeof_T * BucketSize);
  load_bucket h (reinterpret_cast_bucket_ptr a).

(** ** Initialization *)

(** [bucket_storage::initialize_async(key, stream)] *)
Definition bucket_storage_initialize_async (s : bucket_storage) (key : T)
    (stream : N) (d : device) : device :=
  if decide (num_buckets (storage_base s) = 0) then d
  else
    let cg_size := 1 in
    let stride := 4 in
    let grid_size :=
      grid_size (num_buckets (storage_base s)) cg_size stride default_block_size in
    launch (KernelLaunch grid_size default_block_size (bucket_storage_data s)
              (num_buckets (storage_base s)) key)
      stream d.

(** [bucket_storage::initialize(key, stream)] *)
Definition bucket_storage_initialize (s : bucket_storage) (key : T)
    (stream : N) (d : device) : device :=
  stream_wait stream (bucket_storage_initialize_async s key stream d).

(** ** What device code does with a handle *)

(** [*it = value]: [operator*] returns a [value_type&], so an assignment
    through it stores to the slot [current_] points to. *)
Definition iterator_assign (it : iterator) (value : T) (h : gmap Z T)
    : gmap Z T :=
  <[slot_addr (current_ it) := value]> h.

(** [&data()[idx][k]]: the pointer to slot [k] of bucket [idx], which device
    code forms from [data()] to build an iterator. *)
Definition bucket_storage_ref_slot (r : bucket_storage_ref) (idx k : Z)
    : slot_ptr :=
  SlotPtr (bucket_slot_addr (bucket_storage_ref_data r) idx k).

(** ** What host code does with an owner *)

(** The calls a host program makes on an owner between its construction and
    its destruction, and the wait on a stream. *)
Inductive host_call :=
  | CallInitialize (key : T) (stream : N)
  | CallInitializeAsync (key : T) (stream : N)
  | CallStreamWait (stream : N).

Definition run_host_call (s : bucket_storage) (d : device) (c : host_call)
    : device :=
  match c with
  | CallInitialize key stream => bucket_storage_initialize s key stream d
  | CallInitializeAsync key stream => bucket_storage_initialize_async s key stream d
  | CallStreamWait stream => stream_wait stream d
  end.

Definition run_host_calls (s : bucket_storage) (cs : list host_call)
    (d : device) : device :=
  foldl (run_host_call s) d cs.

End bucket_storage.

(** ** Scenarios *)

(** Slots of four bytes in buckets of four, as in scenario S1. *)
Definition S1_params : storage_params := StorageParams 4 4 128.

(** Buckets of a single slot, as in scenario S2. *)
Definition S2_params : storage_params := StorageParams 4 1 128.

(** An allocator whose every request is served by the block at 4096. *)
Definition arena_allocator : allocator_model unit :=
  AllocatorModel unit (λ _ _ _, Some (BucketPtr 4096)).

(** A device with empty memory, idle streams and no allocator call yet. *)
Definition fresh_device : @device Z unit := Device ∅ ∅ [].

(** The owner of S1: an extent of three buckets. *)
Definition S1_storage : @bucket_storage unit :=
  BucketStorage (BucketStorageBase 3) tt (CustomDeleter 12 tt)
    (UniquePtr (BucketPtr 4096) (CustomDeleter 12 tt)).

(** The owner of S2: an extent of zero buckets. *)
Definition S2_storage : @bucket_storage unit :=
  BucketStorage (BucketStorageBase 0) tt (CustomDeleter 0 tt)
    (UniquePtr (BucketPtr 4096) (CustomDeleter 0 tt)).

(** A one-bucket owner at another address, used to keep a stream busy. *)
Definition busy_storage : @bucket_storage unit :=
  BucketStorage (BucketStorageBase 1) tt (CustomDeleter 1 tt)
    (UniquePtr (BucketPtr 8192) (CustomDeleter 1 tt)).

(** Stream 0 still holds the initialization of [busy_storage] with value 7. *)
Definition busy_device : @device Z unit :=
  bucket_storage_initialize_async (params := S2_params) busy_storage 7 0%N
    fresh_device.

(** Two buckets of two slots in memory at 64. *)
Definition pair_params : storage_params := StorageParams 8 2 128.

Definition pair_ref : bucket_storage_ref :=
  bucket_storage_ref_new 2 (BucketPtr 64).

Definition pair_heap : gmap Z Z :=
  <[64 := 10]> (<[72 := 11]> (<[80 := 12]> (<[88 := 13]> ∅))).

(** * Properties *)

Section properties.

Context {T Allocator : Type} {params : storage_params}
  {alloc : allocator_model Allocator}.

Implicit Types (h : gmap Z T) (d : @device T Allocator) (s : @bucket_storage Allocator).
Implicit Types (r : bucket_storage_ref) (l : @kernel_launch T) (p : bucket_ptr).

(** ** Addresses *)

Lemma bucket_slot_addr_unfold p idx k :
  bucket_slot_addr p idx k = bucket_addr p + (idx * BucketSize + k) * sizeof_T.
Proof. unfold bucket_slot_addr, bucket_ptr_add, sizeof_bucket. simpl. ring. Qed.

Lemma nth_slot_addr_unfold p i :
  nth_slot_addr p i = bucket_addr p + i * sizeof_T.
Proof. reflexivity. Qed.

(** Slot [i] of the buffer is slot [i mod BucketSize] of bucket
    [i / BucketSize]. *)
Lemma nth_slot_addr_bucket p i :
  0 < BucketSize →
  nth_slot_addr p i = bucket_slot_addr p (i `div` BucketSize) (i `mod` BucketSize).
Proof.
  intros HB. rewrite bucket_slot_addr_unfold, nth_slot_addr_unfold.
  f_equal. f_equal. rewrite (Z.div_mod i BucketSize) at 1 by lia. ring.
Qed.

Lemma bucket_slot_addr_nth p idx k :
  bucket_slot_addr p idx k = nth_slot_addr p (idx * BucketSize + k).
Proof. by rewrite bucket_slot_addr_unfold, nth_slot_addr_unfold. Qed.

(** A bucket of an aligned array is aligned. *)
Lemma bucket_ptr_add_aligned p idx :
  0 < sizeof_T → 0 < BucketSize →
  bucket_addr p `mod` sizeof_bucket = 0 →
  bucket_addr (bucket_ptr_add p idx) `mod` (sizeof_T * BucketSize) = 0.
Proof.
  intros HT HB Hp. unfold bucket_ptr_add, sizeof_bucket in *. simpl.
  rewrite Z.mod_add by nia. done.
Qed.

(** ** Stores *)

Lemma store_all_lookup (v : T) addrs h a :
  store_all v addrs h !! a = if decide (a ∈ addrs) then Some v else h !! a.
Proof.
  unfold store_all. revert h. induction addrs as [|x addrs IH]; intros h.
  - case_decide as Hin; [by apply elem_of_nil in Hin | done].
  - cbn [foldl]. rewrite IH, lookup_insert.
    destruct (decide (a ∈ addrs)) as [Hin|Hnin];
      destruct (decide (x = a)) as [->|Hne];
      destruct (decide (a ∈ _ :: addrs)) as [Hin'|Hnin']; try done.
    + exfalso. apply Hnin'. by right.
    + exfalso. apply Hnin'. by right.
    + exfalso. apply Hnin'. by left.
    + exfalso. apply elem_of_cons in Hin' as [?|?]; congruence.
Qed.

Lemma store_all_lookup_in (v : T) addrs h a :
  a ∈ addrs → store_all v addrs h !! a = Some v.
Proof. intros Hin. by rewrite store_all_lookup, decide_True. Qed.

Lemma store_all_lookup_notin (v : T) addrs h a :
  a ∉ addrs → store_all v addrs h !! a = h !! a.
Proof. intros Hin. by rewrite store_all_lookup, decide_False. Qed.

(** The order in which the threads' stores reach memory does not matter:
    every interleaving of the same stores leaves the same memory. *)
Lemma store_all_schedule_independent (v : T) addrs addrs' h :
  addrs ≡ₚ addrs' → store_all v addrs h = store_all v addrs' h.
Proof.
  intros Hperm. apply map_eq. intros a. rewrite !store_all_lookup.
  destruct (decide (a ∈ addrs)) as [Hin|Hnin].
  - rewrite decide_True; [done | by rewrite <- Hperm].
  - rewrite decide_False; [done | by rewrite <- Hperm].
Qed.

(** ** Streams *)

Lemma pending_launch l stream d :
  pending (launch l stream d) stream = pending d stream ++ [InitializeKernel l].
Proof. unfold pending at 1, launch. simpl. by rewrite lookup_insert_eq. Qed.

Lemma pending_launch_ne l stream stream' d :
  stream ≠ stream' → pending (launch l stream d) stream' = pending d stream'.
Proof.
  intros Hne. unfold pending, launch. simpl. by rewrite lookup_insert_ne.
Qed.

Lemma pending_stream_wait stream d :
  pending (stream_wait stream d) stream = [].
Proof. unfold pending, stream_wait. simpl. by rewrite lookup_delete_eq. Qed.

Lemma pending_stream_wait_ne stream stream' d :
  stream ≠ stream' → pending (stream_wait stream d) stream' = pending d stream'.
Proof.
  intros Hne. unfold pending, stream_wait. simpl. by rewrite lookup_delete_ne.
Qed.

(** Waiting on an idle stream changes neither memory nor any queue. *)
Lemma stream_wait_idle stream d :
  pending d stream = [] →
  heap (stream_wait stream d) = heap d
  ∧ ∀ stream', pending (stream_wait stream d) stream' = pending d stream'.
Proof.
  intros Hidle. split.
  - unfold stream_wait. simpl. by rewrite Hidle.
  - intros stream'. destruct (decide (stream = stream')) as [<-|Hne].
    + by rewrite pending_stream_wait.
    + by apply pending_stream_wait_ne.
Qed.

(** ** The initialization kernel *)

Lemma bucket_slots_elem p idx a :
  a ∈ bucket_slots p idx ↔ ∃ k, 0 ≤ k < BucketSize ∧ a = bucket_slot_addr p idx k.
Proof.
  unfold bucket_slots. rewrite list_elem_of_fmap. split.
  - intros (k & -> & Hk%elem_of_seqZ). exists k. split; [lia | done].
  - intros (k & Hk & ->). exists k. split; [done|]. apply elem_of_seqZ. lia.
Qed.

(** A thread reaches every bucket of its residue class below [n]. *)
Lemma initialize_thread_covers fuel loop_stride n p idx b k :
  0 < loop_stride → 0 ≤ k < BucketSize → b < n →
  (∃ j, 0 ≤ j < Z.of_nat fuel ∧ b = idx + j * loop_stride) →
  bucket_slot_addr p b k ∈ initialize_thread fuel loop_stride n p idx.
Proof.
  intros Hs Hk Hb. revert idx.
  induction fuel as [|fuel IH]; intros idx (j & Hj & Heq); [lia|].
  cbn [initialize_thread]. rewrite decide_True by nia.
  apply elem_of_app. destruct (decide (j = 0)) as [->|Hj0].
  - left. apply bucket_slots_elem. exists k. split; [done|].
    f_equal. lia.
  - right. apply IH. exists (j - 1). split; [lia|]. rewrite Heq. ring.
Qed.

(** A thread writes nothing but slots of buckets below [n]. *)
Lemma initialize_thread_range fuel loop_stride n p idx a :
  0 ≤ loop_stride → 0 ≤ idx →
  a ∈ initialize_thread fuel loop_stride n p idx →
  ∃ b k, 0 ≤ b < n ∧ 0 ≤ k < BucketSize ∧ a = bucket_slot_addr p b k.
Proof.
  intros Hs. revert idx.
  induction fuel as [|fuel IH]; intros idx Hidx Hin; cbn [initialize_thread] in Hin.
  - by apply elem_of_nil in Hin.
  - case_decide as Hlt; [|by apply elem_of_nil in Hin].
    apply elem_of_app in Hin as [Hin|Hin].
    + apply bucket_slots_elem in Hin as (k & Hk & ->). exists idx, k. lia.
    + apply (IH (idx + loop_stride)); [lia | done].
Qed.

(** The loop stops by its own condition: with at least [n - idx] rounds of
    fuel, more fuel changes nothing. *)
Lemma initialize_thread_fuel fuel fuel' loop_stride n p idx :
  0 < loop_stride → n - idx ≤ Z.of_nat fuel → (fuel ≤ fuel')%nat →
  initialize_thread fuel' loop_stride n p idx
  = initialize_thread fuel loop_stride n p idx.
Proof.
  intros Hs. revert fuel' idx.
  induction fuel as [|fuel IH]; intros fuel' idx Hf Hle.
  - destruct fuel' as [|fuel']; [done|].
    cbn [initialize_thread]. by rewrite decide_False by lia.
  - destruct fuel' as [|fuel']; [lia|].
    cbn [initialize_thread]. case_decide; [|done].
    f_equal. apply IH; lia.
Qed.

(** In particular the [Z.to_nat n] rounds a kernel thread is given are
    enough for every thread, whose index starts at zero or above. *)
Lemma kernel_thread_fuel_suffices fuel' loop_stride n p idx :
  0 < loop_stride → 0 ≤ idx → (Z.to_nat n ≤ fuel')%nat →
  initialize_thread fuel' loop_stride n p idx
  = initialize_thread (Z.to_nat n) loop_stride n p idx.
Proof. intros Hs Hidx Hle. apply initialize_thread_fuel; [done | lia | done]. Qed.

Lemma kernel_writes_covers l b k :
  0 < launch_grid l → 0 < launch_block l →
  0 ≤ b < launch_n l → 0 ≤ k < BucketSize →
  bucket_slot_addr (launch_buckets l) b k ∈ kernel_writes l.
Proof.
  intros Hg Hbl Hb Hk. unfold kernel_writes.
  set (total := launch_grid l * launch_block l).
  assert (0 < total) as Htotal by (unfold total; nia).
  pose proof (Z.mod_pos_bound b total Htotal) as Htid.
  pose proof (Z.mod_pos_bound (b `mod` total) (launch_block l) Hbl) as Hthread.
  apply list_elem_of_bind. exists ((b `mod` total) `div` launch_block l). split.
  - apply list_elem_of_bind. exists ((b `mod` total) `mod` launch_block l). split.
    + apply initialize_thread_covers; [done | done | lia |].
      exists (b `div` total). split.
      * split; [apply Z.div_pos; lia|].
        rewrite Z2Nat.id by lia.
        apply Z.le_lt_trans with b; [|lia].
        apply Z.div_le_upper_bound; nia.
      * unfold global_thread_id, grid_stride. fold total.
        rewrite <- (Z.div_mod (b `mod` total) (launch_block l)) by lia.
        rewrite (Z.div_mod b total) at 1 by lia. ring.
    + apply elem_of_seqZ. lia.
  - apply elem_of_seqZ. split; [apply Z.div_pos; lia|].
    apply Z.div_lt_upper_bound; [lia|]. unfold total in *. nia.
Qed.

Lemma kernel_writes_range l a :
  a ∈ kernel_writes l →
  ∃ b k, 0 ≤ b < launch_n l ∧ 0 ≤ k < BucketSize
         ∧ a = bucket_slot_addr (launch_buckets l) b k.
Proof.
  unfold kernel_writes. intros (blockIdx & Hin & HblockIdx)%list_elem_of_bind.
  apply list_elem_of_bind in Hin as (threadIdx & Hin & HthreadIdx).
  apply elem_of_seqZ in HblockIdx, HthreadIdx.
  apply initialize_thread_range in Hin; [done | |].
  - unfold grid_stride. nia.
  - unfold global_thread_id. nia.
Qed.

(** After a launch every slot of the first [n] buckets holds the value. *)
Lemma run_kernel_fills l h b k :
  0 < launch_grid l → 0 < launch_block l →
  0 ≤ b < launch_n l → 0 ≤ k < BucketSize →
  run_kernel l h !! bucket_slot_addr (launch_buckets l) b k = Some (launch_value l).
Proof.
  intros. unfold run_kernel. apply store_all_lookup_in.
  by apply kernel_writes_covers.
Qed.

(** A launch leaves every other address alone. *)
Lemma run_kernel_frame l h a :
  (∀ b k, 0 ≤ b < launch_n l → 0 ≤ k < BucketSize →
          a ≠ bucket_slot_addr (launch_buckets l) b k) →
  run_kernel l h !! a = h !! a.
Proof.
  intros Hout. unfold run_kernel. apply store_all_lookup_notin.
  intros (b & k & Hb & Hk & ->)%kernel_writes_range. by eapply Hout.
Qed.

(** Whatever order the hardware runs the threads' stores in, the launch
    leaves the memory [run_kernel] computes. *)
Lemma run_kernel_schedule_independent l h schedule :
  schedule ≡ₚ kernel_writes l →
  store_all (launch_value l) schedule h = run_kernel l h.
Proof. intros Hperm. unfold run_kernel. by apply store_all_schedule_independent. Qed.

(** A storage with at least one bucket gets at least one block. *)
Lemma grid_size_pos n block_size :
  0 < n → 0 < block_size → 0 < grid_size n 1 4 block_size.
Proof.
  intros Hn Hb. unfold grid_size, int_div_ceil.
  rewrite Z.quot_div_nonneg by lia. apply Z.div_str_pos. lia.
Qed.

(** ** Loading a bucket *)

Lemma mapM_all_same {A B : Type} (f : A → option B) (xs : list A) (y : B) :
  Forall (λ x, f x = Some y) xs → mapM f xs = Some (replicate (length xs) y).
Proof.
  intros Hall. apply mapM_Some_2.
  induction Hall as [|x xs Hx _ IH]; cbn [length replicate]; by constructor.
Qed.

Lemma load_bucket_filled h p (v : T) :
  (∀ k, 0 ≤ k < BucketSize → h !! (bucket_addr p + k * sizeof_T) = Some v) →
  load_bucket h p = Some (replicate (Z.to_nat BucketSize) v).
Proof.
  intros Hv. unfold load_bucket.
  rewrite <- (length_seqZ 0 BucketSize). apply mapM_all_same.
  apply Forall_seqZ. intros k Hk. apply Hv. lia.
Qed.

Lemma load_bucket_lookup h p bucket k :
  load_bucket h p = Some bucket → 0 ≤ k < BucketSize →
  bucket !! Z.to_nat k = h !! (bucket_addr p + k * sizeof_T).
Proof.
  unfold load_bucket. intros Hload%mapM_Some_1 Hk.
  assert (seqZ 0 BucketSize !! Z.to_nat k = Some k) as Hkth.
  { apply lookup_seqZ. lia. }
  destruct (Forall2_lookup_l _ _ _ _ _ Hload Hkth) as (v & Hv & Hh).
  by rewrite Hv, Hh.
Qed.

(** An aligned base makes the alignment promise of [operator[]] true, and
    the call is then the load of the indexed bucket. *)
Lemma bucket_storage_ref_index_aligned r index h :
  0 < sizeof_T → 0 < BucketSize →
  bucket_addr (bucket_storage_ref_data r) `mod` sizeof_bucket = 0 →
  bucket_storage_ref_index r index h
  = load_bucket h (bucket_ptr_add (bucket_storage_ref_data r) index).
Proof.
  intros HT HB Hbase. unfold bucket_storage_ref_index, builtin_assume_aligned.
  rewrite decide_True by by apply bucket_ptr_add_aligned.
  reflexivity.
Qed.

(** ** Initialization *)

Lemma initialize_async_launches s (key : T) stream d :
  num_buckets (storage_base s) ≠ 0 →
  bucket_storage_initialize_async s key stream d
  = launch (KernelLaunch
              (grid_size (num_buckets (storage_base s)) 1 4 default_block_size)
              default_block_size (bucket_storage_data s)
              (num_buckets (storage_base s)) key) stream d.
Proof. intros Hn. unfold bucket_storage_initialize_async. by rewrite decide_False. Qed.

Lemma initialize_async_empty s (key : T) stream d :
  num_buckets (storage_base s) = 0 →
  bucket_storage_initialize_async s key stream d = d.
Proof. intros Hn. unfold bucket_storage_initialize_async. by rewrite decide_True. Qed.

Lemma heap_stream_wait_launch l stream d :
  heap (stream_wait stream (launch l stream d))
  = run_kernel l (foldl run_work (heap d) (pending d stream)).
Proof.
  unfold stream_wait. cbn [heap]. rewrite pending_launch, foldl_app. reflexivity.
Qed.

(** Once [initialize] has returned, every slot of every bucket holds the
    key. *)
Lemma initialize_fills_bucket_slot s (key : T) stream d b k :
  0 < default_block_size →
  0 ≤ b < num_buckets (storage_base s) → 0 ≤ k < BucketSize →
  heap (bucket_storage_initialize s key stream d)
    !! bucket_slot_addr (bucket_storage_data s) b k = Some key.
Proof.
  intros Hblock Hb Hk. unfold bucket_storage_initialize.
  rewrite initialize_async_launches by lia.
  rewrite heap_stream_wait_launch.
  apply (run_kernel_fills (KernelLaunch _ _ _ _ _)); cbn; try done.
  apply grid_size_pos; lia.
Qed.

(** ** Construction *)

Lemma bucket_ptr_add_one_past p n :
  bucket_addr (bucket_ptr_add p n) = one_past_last_slot p n.
Proof.
  unfold one_past_last_slot. rewrite bucket_slot_addr_unfold.
  unfold bucket_ptr_add, sizeof_bucket. simpl. ring.
Qed.

(** Counted in slots, [end()] lies [capacity() * BucketSize] slots past the
    base, since [capacity()] is added to the bucket pointer. *)
Remark end_slot_distance r :
  current_ (bucket_storage_ref_end r)
  = slot_ptr_add (reinterpret_cast_value_ptr (bucket_storage_ref_data r))
      (capacity (ref_base r) * BucketSize).
Proof.
  unfold bucket_storage_ref_end, slot_ptr_add, reinterpret_cast_value_ptr,
    bucket_ptr_add, sizeof_bucket.
  cbn. do 2 f_equal. ring.
Qed.

(** A successful construction is one successful [allocate(capacity())]. *)
Lemma bucket_storage_new_inv size (a : Allocator) d s d' :
  bucket_storage_new size a d = Some (s, d') →
  ∃ p,
    allocate_result a (size * BucketSize) (alloc_trace d) = Some p
    ∧ s = BucketStorage (BucketStorageBase size) a
            (CustomDeleter (size * BucketSize) a)
            (UniquePtr p (CustomDeleter (size * BucketSize) a))
    ∧ d' = Device (heap d) (streams d)
             (alloc_trace d ++ [Allocate a (size * BucketSize) p]).
Proof.
  unfold bucket_storage_new, allocator_allocate, capacity, num_buckets.
  cbn [extent_]. intros Hnew.
  destruct (allocate_result a _ (alloc_trace d)) as [p|] eqn:Halloc;
    [|discriminate].
  cbn in Hnew. injection Hnew as <- <-. by exists p.
Qed.

(** The block an owner's constructor allocates has [capacity()] buckets, and
    [end()] of the owner's handle is the address right after the last slot
    of that block. *)
Lemma owner_end_is_end_of_allocation size (a : Allocator) d s d' :
  bucket_storage_new size a d = Some (s, d') →
  ∃ n p,
    last (alloc_trace d') = Some (Allocate a n p)
    ∧ bucket_storage_ref_data (bucket_storage_ref_of s) = p
    ∧ slot_addr (current_ (bucket_storage_ref_end (bucket_storage_ref_of s)))
      = one_past_last_slot p n.
Proof.
  intros (p & _ & -> & ->)%bucket_storage_new_inv.
  exists (size * BucketSize), p. cbn [alloc_trace].
  split; [by rewrite last_snoc|]. split; [done|].
  apply bucket_ptr_add_one_past.
Qed.

(** ** The claims *)

(** C1. For a storage of capacity [C] slots and a sentinel [key]: once
    [initialize(key, stream)] has returned, or once [initialize_async(key,
    stream)] was called and the stream has completed, each slot [i] in
    [0, C) equals [key]; and for every bucket index [b] below [num_buckets]
    the bucket [ref()[b]] consists of [BucketSize] copies of [key].  The
    base pointer is aligned for buckets, as the allocator owes. *)
Theorem initialize_fills_every_slot s (key : T) stream d :
  0 < sizeof_T → 0 < BucketSize → 0 < default_block_size →
  bucket_addr (bucket_storage_data s) `mod` sizeof_bucket = 0 →
  (∀ i, 0 ≤ i < capacity (storage_base s) →
     heap (bucket_storage_initialize s key stream d)
       !! nth_slot_addr (bucket_storage_data s) i = Some key
     ∧ heap (stream_wait stream (bucket_storage_initialize_async s key stream d))
       !! nth_slot_addr (bucket_storage_data s) i = Some key)
  ∧ (∀ b, 0 ≤ b < num_buckets (storage_base s) →
     bucket_storage_ref_index (bucket_storage_ref_of s) b
       (heap (bucket_storage_initialize s key stream d))
     = Some (replicate (Z.to_nat BucketSize) key)).
Proof.
  intros HT HB Hblock Haligned. split.
  - intros i Hi. unfold capacity in Hi.
    assert (heap (bucket_storage_initialize s key stream d)
              !! nth_slot_addr (bucket_storage_data s) i = Some key) as Hslot.
    { rewrite nth_slot_addr_bucket by done.
      apply initialize_fills_bucket_slot; [done | | by apply Z.mod_pos_bound].
      split; [apply Z.div_pos; lia|].
      apply Z.div_lt_upper_bound; [lia | nia]. }
    split; exact Hslot.
  - intros b Hb.
    rewrite bucket_storage_ref_index_aligned by done.
    apply load_bucket_filled. intros k Hk.
    by apply (initialize_fills_bucket_slot s key stream d b k).
Qed.

(** C2, as the code has it.  For every handle, both overloads of [end()]
    hold exactly the address [data() + capacity()] reinterpreted as a slot
    pointer, the sum being taken on the bucket pointer: [capacity()] whole
    buckets, that is [capacity() * BucketSize] slots, past the base.  With
    slots and buckets of positive size this is the address one past the last
    slot of the buffer of [num_buckets()] buckets, the slot of index
    [capacity()], exactly when the handle has no bucket or a bucket is a
    single slot. *)
Theorem end_is_capacity_buckets_past_data r :
  0 < sizeof_T → 0 < BucketSize →
  current_ (bucket_storage_ref_end r)
  = reinterpret_cast_value_ptr
      (bucket_ptr_add (bucket_storage_ref_data r) (capacity (ref_base r)))
  ∧ current_ (bucket_storage_ref_end_const r)
    = reinterpret_cast_value_ptr
        (bucket_ptr_add (bucket_storage_ref_data_const r) (capacity (ref_base r)))
  ∧ current_ (bucket_storage_ref_end r)
    = slot_ptr_add (reinterpret_cast_value_ptr (bucket_storage_ref_data r))
        (capacity (ref_base r) * BucketSize)
  ∧ current_ (bucket_storage_ref_end_const r)
    = slot_ptr_add (reinterpret_cast_value_ptr (bucket_storage_ref_data_const r))
        (capacity (ref_base r) * BucketSize)
  ∧ one_past_last_slot (bucket_storage_ref_data r) (num_buckets (ref_base r))
    = nth_slot_addr (bucket_storage_ref_data r) (capacity (ref_base r))
  ∧ (slot_addr (current_ (bucket_storage_ref_end r))
     = one_past_last_slot (bucket_storage_ref_data r) (num_buckets (ref_base r))
     ↔ num_buckets (ref_base r) = 0 ∨ BucketSize = 1)
  ∧ (slot_addr (current_ (bucket_storage_ref_end_const r))
     = one_past_last_slot (bucket_storage_ref_data_const r)
         (num_buckets (ref_base r))
     ↔ num_buckets (ref_base r) = 0 ∨ BucketSize = 1).
Proof.
  intros HT HB.
  assert (slot_addr (current_ (bucket_storage_ref_end r))
          = one_past_last_slot (bucket_storage_ref_data r)
              (num_buckets (ref_base r))
          ↔ num_buckets (ref_base r) = 0 ∨ BucketSize = 1) as Hiff.
  { rewrite <- bucket_ptr_add_one_past.
    unfold bucket_storage_ref_end, bucket_ptr_add, capacity, sizeof_bucket. cbn.
    split.
    - intros Heq.
      destruct (decide (num_buckets (ref_base r) = 0)); [by left|].
      right. nia.
    - intros [-> | ->]; ring. }
  split; [reflexivity|]. split; [reflexivity|].
  split; [apply end_slot_distance|]. split; [apply end_slot_distance|].
  split; [|split; exact Hiff].
  rewrite <- bucket_ptr_add_one_past, nth_slot_addr_unfold.
  unfold bucket_ptr_add, capacity, sizeof_bucket. cbn. ring.
Qed.

(** C4. For a handle over an aligned base and a bucket index below
    [num_buckets] whose buckets are all in memory, [operator[]] returns by
    value the [BucketSize] slots stored at [data() + bucket_index], and that
    address is a multiple of [sizeof(Slot) * BucketSize]. *)
Theorem index_loads_aligned_bucket r index h :
  0 < sizeof_T → 0 < BucketSize →
  bucket_addr (bucket_storage_ref_data r) `mod` sizeof_bucket = 0 →
  0 ≤ index < num_buckets (ref_base r) →
  (∀ i, 0 ≤ i < capacity (ref_base r) →
        is_Some (h !! nth_slot_addr (bucket_storage_ref_data r) i)) →
  ∃ bucket,
    bucket_storage_ref_index r index h = Some bucket
    ∧ length bucket = Z.to_nat BucketSize
    ∧ (∀ k, 0 ≤ k < BucketSize →
            bucket !! Z.to_nat k
            = h !! bucket_slot_addr (bucket_storage_ref_data r) index k)
    ∧ bucket_addr (bucket_ptr_add (bucket_storage_ref_data r) index)
        `mod` (sizeof_T * BucketSize) = 0.
Proof.
  intros HT HB Haligned Hindex Hmem.
  rewrite bucket_storage_ref_index_aligned by done.
  destruct (load_bucket h (bucket_ptr_add (bucket_storage_ref_data r) index))
    as [bucket|] eqn:Hload.
  - exists bucket. split; [done|]. split; [|split].
    + apply length_mapM in Hload. by rewrite length_seqZ in Hload.
    + intros k Hk. by apply load_bucket_lookup.
    + by apply bucket_ptr_add_aligned.
  - exfalso. apply eq_None_not_Some in Hload. apply Hload.
    apply mapM_is_Some_2.
    apply Forall_seqZ. intros k Hk. cbn [compose].
    change (is_Some (h !! bucket_slot_addr (bucket_storage_ref_data r) index k)).
    rewrite bucket_slot_addr_nth. apply Hmem. unfold capacity. nia.
Qed.

(** C5, as the code has it.  With zero buckets, [initialize_async] returns
    at once, launches nothing and leaves the device as it was;
    [initialize] launches nothing either but still waits on the stream, so
    it is exactly a wait: work queued there earlier runs first, and on an
    idle stream nothing changes.  Neither call can fail. *)
Theorem zero_buckets_initialize_launches_nothing s (key : T) stream d :
  num_buckets (storage_base s) = 0 →
  bucket_storage_initialize_async s key stream d = d
  ∧ bucket_storage_initialize s key stream d = stream_wait stream d
  ∧ (pending d stream = [] →
     heap (bucket_storage_initialize s key stream d) = heap d
     ∧ ∀ stream', pending (bucket_storage_initialize s key stream d) stream'
                  = pending d stream').
Proof.
  intros Hzero. unfold bucket_storage_initialize.
  rewrite initialize_async_empty by done.
  split; [done|]. split; [done|]. apply stream_wait_idle.
Qed.

(** C6. [initialize] is [initialize_async] followed by a wait on the same
    stream.  It runs the work [initialize_async] has queued and returns
    with the stream drained, whereas [initialize_async] returns with memory
    untouched and its launch, if any, still queued behind the earlier
    work. *)
Theorem initialize_is_async_then_wait s (key : T) stream d :
  bucket_storage_initialize s key stream d
  = stream_wait stream (bucket_storage_initialize_async s key stream d)
  ∧ pending (bucket_storage_initialize s key stream d) stream = []
  ∧ heap (bucket_storage_initialize s key stream d)
    = foldl run_work (heap d)
        (pending (bucket_storage_initialize_async s key stream d) stream)
  ∧ heap (bucket_storage_initialize_async s key stream d) = heap d
  ∧ pending (bucket_storage_initialize_async s key stream d) stream
    = pending d stream
      ++ (if decide (num_buckets (storage_base s) = 0) then []
          else [InitializeKernel
                  (KernelLaunch
                     (grid_size (num_buckets (storage_base s)) 1 4
                        default_block_size)
                     default_block_size (bucket_storage_data s)
                     (num_buckets (storage_base s)) key)]).
Proof.
  split; [reflexivity|]. split; [apply pending_stream_wait|].
  assert (heap (bucket_storage_initialize_async s key stream d) = heap d) as Hheap.
  { unfold bucket_storage_initialize_async. by case_decide. }
  split; [|split; [exact Hheap|]].
  - unfold bucket_storage_initialize, stream_wait. cbn [heap]. by rewrite Hheap.
  - unfold bucket_storage_initialize_async. case_decide.
    + by rewrite app_nil_r.
    + apply pending_launch.
Qed.

(** C7. The constructor builds the deleter from [(capacity(), allocator_)],
    hands a copy of it to [buckets_], and allocates [capacity()] buckets;
    the destructor makes no call on a null pointer and otherwise exactly one,
    [deallocate] on the same allocator with the pointer and the count of the
    allocation. *)
Theorem deallocation_matches_allocation size (a : Allocator) d s d' :
  bucket_storage_new size a d = Some (s, d') →
  bucket_deleter_ s = CustomDeleter (capacity (storage_base s)) (allocator_ s)
  ∧ get_deleter (buckets_ s) = bucket_deleter_ s
  ∧ allocator_ s = a
  ∧ alloc_trace d'
    = alloc_trace d
      ++ [Allocate a (capacity (storage_base s)) (bucket_storage_data s)]
  ∧ ∀ d'' : @device T Allocator,
      alloc_trace (bucket_storage_destroy s d'')
      = alloc_trace d''
        ++ (if decide (bucket_addr (bucket_storage_data s) = 0) then []
            else [Deallocate a (bucket_storage_data s)
                    (capacity (storage_base s))]).
Proof.
  intros (p & _ & -> & ->)%bucket_storage_new_inv.
  repeat split. intros d''.
  unfold bucket_storage_destroy, unique_ptr_destroy, bucket_storage_data.
  cbn [buckets_ get get_deleter]. case_decide; [by rewrite app_nil_r | reflexivity].
Qed.

(** C8. [ref()] reads the owner and nothing else, and has no state to
    write to.  Any two handles it returns for one owner have equal [data()]
    and equal [num_buckets], and each holds exactly the owner's bucket
    extent and base pointer. *)
Theorem ref_is_stable s r1 r2 :
  r1 = bucket_storage_ref_of s → r2 = bucket_storage_ref_of s →
  bucket_storage_ref_data r1 = bucket_storage_ref_data r2
  ∧ num_buckets (ref_base r1) = num_buckets (ref_base r2)
  ∧ r1 = BucketStorageRef (BucketStorageBase (bucket_extent (storage_base s)))
           (bucket_storage_data s)
  ∧ bucket_storage_ref_data r1 = bucket_storage_data s
  ∧ bucket_extent (ref_base r1) = bucket_extent (storage_base s)
  ∧ num_buckets (ref_base r1) = num_buckets (storage_base s).
Proof. intros -> ->. repeat split. Qed.

(** C9. Two iterators built from slot pointers [p] and [q] compare equal
    exactly when [p = q], and unequal exactly when they do not compare
    equal. *)
Theorem iterator_equality (p q : slot_ptr) :
  (iterator_eq (Iterator p) (Iterator q) = true ↔ p = q)
  ∧ iterator_ne (Iterator p) (Iterator q)
    = negb (iterator_eq (Iterator p) (Iterator q))
  ∧ (iterator_ne (Iterator p) (Iterator q) = true ↔ p ≠ q).
Proof.
  assert (iterator_eq (Iterator p) (Iterator q) = true ↔ p = q) as Heq.
  { unfold iterator_eq. cbn. rewrite bool_decide_eq_true.
    destruct p, q. cbn. split; congruence. }
  split; [exact Heq|]. split; [reflexivity|].
  unfold iterator_ne. rewrite negb_true_iff, <- not_true_iff_false.
  by rewrite Heq.
Qed.

(** C10. On one handle the two overloads of [data()] return the same
    pointer and the two overloads of [end()] return iterators holding the
    same address. *)
Theorem const_overloads_agree r :
  bucket_storage_ref_data r = bucket_storage_ref_data_const r
  ∧ current_ (bucket_storage_ref_end r) = current_ (bucket_storage_ref_end_const r)
  ∧ iterator_eq (bucket_storage_ref_end r) (bucket_storage_ref_end_const r) = true.
Proof.
  split; [reflexivity|]. split; [reflexivity|].
  unfold iterator_eq. by apply bool_decide_eq_true.
Qed.

(** ** Further properties of the handle *)

Lemma nth_slot_addr_inj p i j :
  0 < sizeof_T → nth_slot_addr p i = nth_slot_addr p j → i = j.
Proof. rewrite !nth_slot_addr_unfold. intros HT Heq. nia. Qed.

(** Different slots of the bucket array have different addresses. *)
Lemma bucket_slot_addr_inj p b k b' k' :
  0 < sizeof_T → 0 ≤ k < BucketSize → 0 ≤ k' < BucketSize →
  bucket_slot_addr p b k = bucket_slot_addr p b' k' → b = b' ∧ k = k'.
Proof.
  intros HT Hk Hk'. rewrite !bucket_slot_addr_nth.
  intros Heq%nth_slot_addr_inj; [|done].
  assert (b = b') as -> by (destruct (Z.lt_trichotomy b b') as [?|[?|?]]; nia).
  split; [done | lia].
Qed.

(** Two lookups in a row of slots agree when they agree slot by slot. *)
Lemma mapM_agree {A B : Type} (f g : A → option B) (xs : list A) :
  Forall (λ x, f x = g x) xs → mapM f xs = mapM g xs.
Proof.
  intros Hall.
  assert (∀ ys, Forall2 (λ x y, f x = Some y) xs ys
                ↔ Forall2 (λ x y, g x = Some y) xs ys) as Hiff.
  { intros ys. split; intros H2; induction H2 as [|x y xs' ys' Hxy _ IH];
      try constructor; inversion Hall; subst; try congruence; by apply IH. }
  destruct (mapM f xs) as [ys|] eqn:Hf.
  - symmetry. apply mapM_Some, Hiff, mapM_Some, Hf.
  - destruct (mapM g xs) as [ys|] eqn:Hg; [|done].
    apply mapM_Some, Hiff, mapM_Some in Hg. congruence.
Qed.

(** X1. With slots and buckets of positive size, [end()] (either overload)
    compares unequal to the iterator of every slot of the [capacity()]
    buckets that start at [data()], hence to that of every slot below
    [capacity()]: it can serve as the "not found" value. *)
Theorem end_differs_from_every_slot r i :
  0 < sizeof_T → 0 < BucketSize →
  0 ≤ i < capacity (ref_base r) * BucketSize →
  iterator_ne (bucket_storage_ref_end r)
    (Iterator (slot_ptr_add
                 (reinterpret_cast_value_ptr (bucket_storage_ref_data r)) i))
  = true
  ∧ iterator_ne (bucket_storage_ref_end_const r)
      (Iterator (slot_ptr_add
                   (reinterpret_cast_value_ptr (bucket_storage_ref_data_const r)) i))
    = true.
Proof.
  intros HT HB Hi.
  assert (bucket_addr (ref_buckets_ r) + capacity (ref_base r) * sizeof_bucket
          ≠ bucket_addr (ref_buckets_ r) + i * sizeof_T) as Hne.
  { unfold sizeof_bucket. nia. }
  split; unfold iterator_ne, iterator_eq; apply negb_true_iff,
    bool_decide_eq_false; exact Hne.
Qed.

(** X2. With slots and buckets of positive size, [end()] compares equal to
    the iterator built from [data()] exactly when the handle has no
    bucket. *)
Theorem end_is_data_iff_empty r :
  0 < sizeof_T → 0 < BucketSize →
  iterator_eq (bucket_storage_ref_end r)
    (Iterator (reinterpret_cast_value_ptr (bucket_storage_ref_data r))) = true
  ↔ num_buckets (ref_base r) = 0.
Proof.
  intros HT HB. unfold iterator_eq. rewrite bool_decide_eq_true.
  unfold bucket_storage_ref_end, bucket_ptr_add, capacity, sizeof_bucket.
  cbn. split; intros H; nia.
Qed.


(** X4. On a base pointer that is not a multiple of the bucket size the
    alignment promise of [operator[]] is false for every index, so every
    call is undefined: whether an access is aligned depends on the base
    alone. *)
Theorem index_misaligned_base_undefined r index h :
  0 < sizeof_T → 0 < BucketSize →
  bucket_addr (bucket_storage_ref_data r) `mod` sizeof_bucket ≠ 0 →
  bucket_storage_ref_index r index h = None.
Proof.
  intros HT HB Hbase. unfold bucket_storage_ref_index, builtin_assume_aligned.
  rewrite decide_False; [done|].
  unfold bucket_ptr_add, sizeof_bucket in *. cbn.
  by rewrite Z.mod_add by nia.
Qed.

(** X5. After [*it = v], reading [*it'] gives [v] when [it == it'] and
    what it gave before otherwise. *)
Theorem deref_after_assign it it' (v : T) h :
  iterator_deref it' (iterator_assign it v h)
  = if iterator_eq it it' then Some v else iterator_deref it' h.
Proof.
  unfold iterator_deref, iterator_assign, iterator_eq.
  rewrite lookup_insert.
  destruct (decide (slot_addr (current_ it) = slot_addr (current_ it')))
    as [Heq|Hne].
  - by rewrite bool_decide_true.
  - by rewrite bool_decide_false.
Qed.

Lemma load_bucket_store h p k (v : T) bucket :
  0 < sizeof_T → 0 ≤ k < BucketSize →
  load_bucket h p = Some bucket →
  load_bucket (<[bucket_addr p + k * sizeof_T := v]> h) p
  = Some (<[Z.to_nat k := v]> bucket).
Proof.
  unfold load_bucket. intros HT Hk Hload%mapM_Some_1. apply mapM_Some_2.
  apply Forall2_same_length_lookup in Hload as [Hlen Hload].
  apply Forall2_same_length_lookup. split; [by rewrite length_insert|].
  intros i x y Hx Hy. apply lookup_seqZ in Hx as [-> Hi].
  rewrite length_seqZ in Hlen.
  destruct (decide (i = Z.to_nat k)) as [->|Hne].
  - rewrite list_lookup_insert_eq in Hy by lia. injection Hy as <-.
    rewrite Z2Nat.id by lia. apply lookup_insert_eq.
  - rewrite list_lookup_insert_ne in Hy by done.
    rewrite lookup_insert_ne by nia.
    apply (Hload i); [|done]. apply lookup_seqZ. lia.
Qed.

Lemma load_bucket_store_other h p a (v : T) :
  (∀ k, 0 ≤ k < BucketSize → a ≠ bucket_addr p + k * sizeof_T) →
  load_bucket (<[a := v]> h) p = load_bucket h p.
Proof.
  intros Hother. unfold load_bucket. apply mapM_agree, Forall_seqZ.
  intros k Hk. apply lookup_insert_ne, Hother. lia.
Qed.

(** X6. A store through the iterator of slot [k] of bucket [b] shows in the
    next [operator[](b)]: the bucket comes back with slot [k] replaced and
    every other slot as before. *)
Theorem index_after_slot_write r b k (v : T) h bucket :
  0 < sizeof_T → 0 ≤ k < BucketSize →
  bucket_storage_ref_index r b h = Some bucket →
  bucket_storage_ref_index r b
    (iterator_assign (Iterator (bucket_storage_ref_slot r b k)) v h)
  = Some (<[Z.to_nat k := v]> bucket).
Proof.
  intros HT Hk. unfold bucket_storage_ref_index, builtin_assume_aligned.
  case_decide; [|discriminate]. cbn. intros Hload.
  unfold iterator_assign, bucket_storage_ref_slot, bucket_slot_addr. cbn.
  by apply (load_bucket_store h (BucketPtr _)).
Qed.

(** X7. A store through the iterator of a slot of bucket [b] changes no
    other bucket: [operator[](b')] returns what it returned before for
    every [b'] other than [b]. *)
Theorem index_other_bucket_unchanged r b b' k (v : T) h :
  0 < sizeof_T → 0 ≤ k < BucketSize → b ≠ b' →
  bucket_storage_ref_index r b'
    (iterator_assign (Iterator (bucket_storage_ref_slot r b k)) v h)
  = bucket_storage_ref_index r b' h.
Proof.
  intros HT Hk Hb. unfold bucket_storage_ref_index, builtin_assume_aligned.
  case_decide; [|done]. cbn.
  unfold iterator_assign, bucket_storage_ref_slot. cbn.
  apply load_bucket_store_other. intros k' Hk' Heq.
  apply (bucket_slot_addr_inj _ b k b' k') in Heq as [? _]; done.
Qed.

(** ** Further properties of the owner *)

Lemma device_eq (d1 d2 : @device T Allocator) :
  heap d1 = heap d2 → streams d1 = streams d2 →
  alloc_trace d1 = alloc_trace d2 → d1 = d2.
Proof. destruct d1, d2. cbn. by intros -> -> ->. Qed.

Lemma stream_wait_stream_wait stream d :
  stream_wait stream (stream_wait stream d) = stream_wait stream d.
Proof.
  apply device_eq; [|apply delete_delete_eq|done].
  unfold stream_wait at 1. cbn [heap]. by rewrite pending_stream_wait.
Qed.

Lemma stream_wait_launch l stream d :
  stream_wait stream (launch l stream d)
  = Device (run_kernel l (foldl run_work (heap d) (pending d stream)))
      (delete stream (streams d)) (alloc_trace d).
Proof.
  apply device_eq; [apply heap_stream_wait_launch| |done].
  unfold stream_wait, launch. cbn. apply delete_insert_eq.
Qed.

Lemma pending_drained h (streams : gmap N (list (@work T))) stream
    (trace : list (alloc_event Allocator)) :
  pending (Device h (delete stream streams) trace) stream = [].
Proof. unfold pending. cbn. by rewrite lookup_delete_eq. Qed.

(** What [initialize] leaves in memory: the earlier work of the stream, then
    the fill if there is a bucket. *)
Lemma heap_initialize s (key : T) stream d :
  heap (bucket_storage_initialize s key stream d)
  = (if decide (num_buckets (storage_base s) = 0) then id
     else run_kernel
            (KernelLaunch
               (grid_size (num_buckets (storage_base s)) 1 4 default_block_size)
               default_block_size (bucket_storage_data s)
               (num_buckets (storage_base s)) key))
      (foldl run_work (heap d) (pending d stream)).
Proof.
  unfold bucket_storage_initialize. case_decide as Hn.
  - by rewrite initialize_async_empty.
  - rewrite initialize_async_launches by done. apply heap_stream_wait_launch.
Qed.

(** The fill writes no address but those of the slots below [capacity()]. *)
Lemma heap_initialize_frame s (key : T) stream d a :
  (∀ i, 0 ≤ i < capacity (storage_base s) →
        a ≠ nth_slot_addr (bucket_storage_data s) i) →
  heap (bucket_storage_initialize s key stream d) !! a
  = foldl run_work (heap d) (pending d stream) !! a.
Proof.
  intros Hother. rewrite heap_initialize. case_decide; [done|].
  apply run_kernel_frame. cbn. intros b k Hb Hk.
  rewrite bucket_slot_addr_nth. apply Hother. unfold capacity. nia.
Qed.

Lemma store_all_overwrite (v1 v2 : T) addrs h :
  store_all v2 addrs (store_all v1 addrs h) = store_all v2 addrs h.
Proof.
  apply map_eq. intros a. rewrite !store_all_lookup. by case_decide.
Qed.

Lemma alloc_trace_run_host_call s c d :
  alloc_trace (run_host_call s d c) = alloc_trace d.
Proof.
  destruct c as [key stream|key stream|stream]; cbn;
    unfold bucket_storage_initialize, bucket_storage_initialize_async;
    try case_decide; done.
Qed.

Lemma alloc_trace_run_host_calls s cs d :
  alloc_trace (run_host_calls s cs d) = alloc_trace d.
Proof.
  unfold run_host_calls. revert d.
  induction cs as [|c cs IH]; intros d; [done|].
  cbn [foldl]. by rewrite IH, alloc_trace_run_host_call.
Qed.

(** X8. Construction fails exactly when [allocate(capacity())] fails.  When
    it succeeds, [data()] is the pointer [allocate] returned, [allocator()]
    the allocator passed in, [ref()] the handle of the extent passed in over
    that pointer, and no slot was written and no work queued. *)
Theorem construction_outcome size (a : Allocator) d :
  match bucket_storage_new size a d with
  | None => allocate_result a (size * BucketSize) (alloc_trace d) = None
  | Some (s, d') =>
      allocate_result a (size * BucketSize) (alloc_trace d)
      = Some (bucket_storage_data s)
      ∧ bucket_storage_allocator s = a
      ∧ num_buckets (storage_base s) = size
      ∧ bucket_storage_ref_of s
        = bucket_storage_ref_new size (bucket_storage_data s)
      ∧ heap d' = heap d
      ∧ streams d' = streams d
  end.
Proof.
  destruct (bucket_storage_new size a d) as [[s d']|] eqn:Hnew.
  - apply bucket_storage_new_inv in Hnew as (p & Halloc & -> & ->).
    by repeat split.
  - unfold bucket_storage_new, allocator_allocate, capacity, num_buckets in Hnew.
    cbn [extent_] in Hnew.
    by destruct (allocate_result a _ (alloc_trace d)).
Qed.

(** X9. However many [initialize], [initialize_async] and stream waits a
    host program runs on an owner between constructing and destroying it,
    the owner makes exactly two allocator calls over its life, [allocate]
    and then [deallocate] with the same allocator, pointer and count (only
    [allocate] when the pointer is null); destruction writes no slot and
    runs or drops no queued work. *)
Theorem lifecycle_allocator_calls size (a : Allocator) d s d' cs :
  bucket_storage_new size a d = Some (s, d') →
  alloc_trace (bucket_storage_destroy s (run_host_calls s cs d'))
  = alloc_trace d
    ++ Allocate a (capacity (storage_base s)) (bucket_storage_data s)
       :: (if decide (bucket_addr (bucket_storage_data s) = 0) then []
           else [Deallocate a (bucket_storage_data s)
                   (capacity (storage_base s))])
  ∧ heap (bucket_storage_destroy s (run_host_calls s cs d'))
    = heap (run_host_calls s cs d')
  ∧ streams (bucket_storage_destroy s (run_host_calls s cs d'))
    = streams (run_host_calls s cs d').
Proof.
  intros (p & _ & -> & ->)%bucket_storage_new_inv.
  unfold bucket_storage_destroy, unique_ptr_destroy, bucket_storage_data.
  cbn [buckets_ get get_deleter storage_base].
  case_decide; cbn; rewrite alloc_trace_run_host_calls; cbn;
    by rewrite <- ?app_assoc.
Qed.

(** X10. [initialize_async] and [initialize] on one stream leave the queue
    of every other stream as it was, and neither makes an allocator call. *)
Theorem initialize_leaves_other_streams s (key : T) stream stream' d :
  stream ≠ stream' →
  pending (bucket_storage_initialize_async s key stream d) stream'
  = pending d stream'
  ∧ pending (bucket_storage_initialize s key stream d) stream' = pending d stream'
  ∧ alloc_trace (bucket_storage_initialize_async s key stream d) = alloc_trace d
  ∧ alloc_trace (bucket_storage_initialize s key stream d) = alloc_trace d.
Proof.
  intros Hne.
  assert (pending (bucket_storage_initialize_async s key stream d) stream'
          = pending d stream') as Hasync.
  { unfold bucket_storage_initialize_async. case_decide; [done|].
    by apply pending_launch_ne. }
  split; [exact Hasync|]. split.
  - unfold bucket_storage_initialize.
    by rewrite pending_stream_wait_ne, Hasync.
  - split.
    + apply (alloc_trace_run_host_call s (CallInitializeAsync key stream)).
    + apply (alloc_trace_run_host_call s (CallInitialize key stream)).
Qed.

(** X11. Two [initialize_async] calls on one stream followed by one wait
    leave the device exactly as two [initialize] calls in a row do: the
    stream runs the submissions in order. *)
Theorem async_twice_then_wait s (k1 k2 : T) stream d :
  stream_wait stream
    (bucket_storage_initialize_async s k2 stream
       (bucket_storage_initialize_async s k1 stream d))
  = bucket_storage_initialize s k2 stream
      (bucket_storage_initialize s k1 stream d).
Proof.
  unfold bucket_storage_initialize.
  destruct (decide (num_buckets (storage_base s) = 0)) as [Hn|Hn].
  - rewrite !initialize_async_empty by done.
    by rewrite stream_wait_stream_wait.
  - rewrite !initialize_async_launches by done.
    rewrite !stream_wait_launch. rewrite pending_launch, foldl_app.
    apply device_eq; cbn [heap streams alloc_trace launch].
    + by rewrite pending_drained.
    + by rewrite delete_insert_eq, delete_delete_eq.
    + done.
Qed.

(** X12. [initialize] overwrites: initializing with [k1] and then with [k2]
    on one stream leaves the device as initializing with [k2] alone does;
    with [k1 = k2], a second [initialize] changes nothing. *)
Theorem initialize_overwrites s (k1 k2 : T) stream d :
  bucket_storage_initialize s k2 stream
    (bucket_storage_initialize s k1 stream d)
  = bucket_storage_initialize s k2 stream d.
Proof.
  unfold bucket_storage_initialize.
  destruct (decide (num_buckets (storage_base s) = 0)) as [Hn|Hn].
  - rewrite !initialize_async_empty by done. apply stream_wait_stream_wait.
  - rewrite !initialize_async_launches by done.
    rewrite !stream_wait_launch.
    apply device_eq; cbn [heap streams alloc_trace].
    + rewrite pending_drained. apply store_all_overwrite.
    + apply delete_delete_eq.
    + done.
Qed.

(** X13. Beyond the work queued earlier on the stream, [initialize] changes
    memory at the slots below [capacity()] only: every other address holds
    what that earlier work left there. *)
Theorem initialize_changes_only_its_slots s (key : T) stream d a :
  (∀ i, 0 ≤ i < capacity (storage_base s) →
        a ≠ nth_slot_addr (bucket_storage_data s) i) →
  heap (bucket_storage_initialize s key stream d) !! a
  = foldl run_work (heap d) (pending d stream) !! a
  ∧ heap (stream_wait stream (bucket_storage_initialize_async s key stream d)) !! a
    = heap (stream_wait stream d) !! a.
Proof.
  intros Hother. split; by apply heap_initialize_frame.
Qed.

(** X14. [initialize] never stores to the slot [end()] points to: reading
    through [end()] of the owner's handle gives after [initialize] what the
    earlier work of the stream left there. *)
Theorem initialize_never_writes_end s (key : T) stream d :
  0 < sizeof_T → 0 < BucketSize →
  iterator_deref (bucket_storage_ref_end (bucket_storage_ref_of s))
    (heap (bucket_storage_initialize s key stream d))
  = iterator_deref (bucket_storage_ref_end (bucket_storage_ref_of s))
      (foldl run_work (heap d) (pending d stream)).
Proof.
  intros HT HB. unfold iterator_deref. apply heap_initialize_frame.
  intros i Hi. rewrite nth_slot_addr_unfold.
  unfold bucket_storage_ref_end, bucket_storage_ref_of, bucket_storage_ref_new,
    bucket_ptr_add, bucket_extent, capacity, num_buckets, sizeof_bucket in *.
  cbn in *. set (C := extent_ (storage_base s) * BucketSize) in *.
  assert (i < C * BucketSize) as Hlt by nia.
  intros Heq.
  assert ((C * BucketSize - i) * sizeof_T = 0) as [?|?]%Z.mul_eq_0 by lia; lia.
Qed.

(** X15. The constructor allocates [capacity()] buckets and [initialize]
    fills the first [num_buckets()] of them.  For an owner built from a
    non-negative extent, every slot from index [capacity()] up to
    [capacity() * BucketSize] lies inside the allocated block and is left by
    [initialize] as the earlier work of the stream left it. *)
Theorem initialize_leaves_allocated_tail size (a : Allocator) d0 s d1
    (key : T) stream d i :
  bucket_storage_new size a d0 = Some (s, d1) →
  0 < sizeof_T → 0 < BucketSize → 0 ≤ size →
  capacity (storage_base s) ≤ i < capacity (storage_base s) * BucketSize →
  (∃ n p, last (alloc_trace d1) = Some (Allocate a n p)
          ∧ bucket_addr p ≤ nth_slot_addr (bucket_storage_data s) i
          ∧ nth_slot_addr (bucket_storage_data s) i + sizeof_T
            ≤ bucket_addr (bucket_ptr_add p n))
  ∧ heap (bucket_storage_initialize s key stream d)
      !! nth_slot_addr (bucket_storage_data s) i
    = foldl run_work (heap d) (pending d stream)
        !! nth_slot_addr (bucket_storage_data s) i.
Proof.
  intros (p & _ & -> & ->)%bucket_storage_new_inv HT HB Hsize Hi.
  unfold capacity, num_buckets in Hi. cbn in Hi. split.
  - exists (size * BucketSize), p. cbn [alloc_trace].
    split; [by rewrite last_snoc|].
    rewrite nth_slot_addr_unfold. unfold bucket_storage_data, bucket_ptr_add,
      sizeof_bucket. cbn. nia.
  - apply heap_initialize_frame. intros j Hj Heq.
    apply nth_slot_addr_inj in Heq; [|done].
    unfold capacity, num_buckets in Hj. cbn in Hj. lia.
Qed.

End properties.

(** * The scenarios, checked *)

Lemma initialize_fills_every_slot_S1 :
  heap (bucket_storage_initialize (params := S1_params) S1_storage 65535 0%N
          fresh_device)
    !! nth_slot_addr (params := S1_params) (bucket_storage_data S1_storage) 11
  = Some 65535
  ∧ bucket_storage_ref_index (params := S1_params)
      (bucket_storage_ref_of S1_storage) 2
      (heap (bucket_storage_initialize (params := S1_params) S1_storage 65535
               0%N fresh_device))
    = Some [65535; 65535; 65535; 65535].
Proof.
  destruct (initialize_fills_every_slot (params := S1_params) S1_storage 65535
              0%N fresh_device) as [Hslots Hbuckets].
  - cbn. lia.
  - cbn. lia.
  - cbn. lia.
  - reflexivity.
  - split.
    + apply (Hslots 11). unfold capacity, num_buckets. cbn. lia.
    + apply (Hbuckets 2). unfold num_buckets. cbn. lia.
Defined.

Lemma index_loads_aligned_bucket_pair :
  ∃ bucket,
    bucket_storage_ref_index (params := pair_params) pair_ref 1 pair_heap
    = Some bucket
    ∧ length bucket = 2%nat
    ∧ (∀ k, 0 ≤ k < 2 →
            bucket !! Z.to_nat k
            = pair_heap !! bucket_slot_addr (params := pair_params)
                              (BucketPtr 64) 1 k)
    ∧ 80 `mod` 16 = 0.
Proof.
  apply (index_loads_aligned_bucket (params := pair_params) pair_ref 1 pair_heap).
  - cbn. lia.
  - cbn. lia.
  - reflexivity.
  - unfold num_buckets. cbn. lia.
  - intros i Hi. unfold capacity, num_buckets in Hi. cbn in Hi.
    assert (i = 0 ∨ i = 1 ∨ i = 2 ∨ i = 3) as [-> | [-> | [-> | ->]]] by lia;
      vm_compute; eauto.
Defined.

Lemma zero_buckets_initialize_launches_nothing_S2 :
  bucket_storage_initialize_async (params := S2_params) S2_storage 0 0%N
    fresh_device = fresh_device
  ∧ bucket_storage_initialize (params := S2_params) S2_storage 0 0%N fresh_device
    = stream_wait (params := S2_params) 0%N fresh_device
  ∧ (pending fresh_device 0%N = [] →
     heap (bucket_storage_initialize (params := S2_params) S2_storage 0 0%N
             fresh_device) = heap fresh_device
     ∧ ∀ stream',
         pending (bucket_storage_initialize (params := S2_params) S2_storage 0
                    0%N fresh_device) stream'
         = pending fresh_device stream').
Proof.
  apply (zero_buckets_initialize_launches_nothing (params := S2_params)
           S2_storage 0 0%N fresh_device).
  reflexivity.
Defined.

(** C5, as first stated, fails for [initialize]: with zero buckets it does
    not come back at once.  Here the stream still holds the initialization
    of another storage, and [initialize] returns only after that kernel has
    run. *)
Lemma zero_buckets_initialize_still_waits :
  num_buckets (storage_base S2_storage) = 0
  ∧ pending busy_device 0%N
    = [InitializeKernel (KernelLaunch 1 128 (BucketPtr 8192) 1 7)]
  ∧ heap busy_device !! 8192 = None
  ∧ heap (bucket_storage_initialize (params := S2_params) S2_storage 0 0%N
            busy_device) !! 8192 = Some 7
  ∧ pending (bucket_storage_initialize (params := S2_params) S2_storage 0 0%N
               busy_device) 0%N = []
  ∧ bucket_storage_initialize (params := S2_params) S2_storage 0 0%N busy_device
    ≠ busy_device.
Proof.
  repeat split; try reflexivity.
  intros Heq. apply (f_equal (λ d, heap d !! 8192)) in Heq. discriminate Heq.
Qed.

Lemma end_is_capacity_buckets_past_data_S1 :
  current_ (bucket_storage_ref_end (params := S1_params)
              (bucket_storage_ref_of S1_storage))
  = reinterpret_cast_value_ptr
      (bucket_ptr_add (params := S1_params)
         (bucket_storage_ref_data (bucket_storage_ref_of S1_storage))
         (capacity (params := S1_params)
            (ref_base (bucket_storage_ref_of S1_storage))))
  ∧ current_ (bucket_storage_ref_end_const (params := S1_params)
                (bucket_storage_ref_of S1_storage))
    = reinterpret_cast_value_ptr
        (bucket_ptr_add (params := S1_params)
           (bucket_storage_ref_data_const (bucket_storage_ref_of S1_storage))
           (capacity (params := S1_params)
              (ref_base (bucket_storage_ref_of S1_storage))))
  ∧ current_ (bucket_storage_ref_end (params := S1_params)
                (bucket_storage_ref_of S1_storage))
    = slot_ptr_add (params := S1_params)
        (reinterpret_cast_value_ptr
           (bucket_storage_ref_data (bucket_storage_ref_of S1_storage)))
        (capacity (params := S1_params)
           (ref_base (bucket_storage_ref_of S1_storage))
         * BucketSize (storage_params := S1_params))
  ∧ current_ (bucket_storage_ref_end_const (params := S1_params)
                (bucket_storage_ref_of S1_storage))
    = slot_ptr_add (params := S1_params)
        (reinterpret_cast_value_ptr
           (bucket_storage_ref_data_const (bucket_storage_ref_of S1_storage)))
        (capacity (params := S1_params)
           (ref_base (bucket_storage_ref_of S1_storage))
         * BucketSize (storage_params := S1_params))
  ∧ one_past_last_slot (params := S1_params)
      (bucket_storage_ref_data (bucket_storage_ref_of S1_storage))
      (num_buckets (ref_base (bucket_storage_ref_of S1_storage)))
    = nth_slot_addr (params := S1_params)
        (bucket_storage_ref_data (bucket_storage_ref_of S1_storage))
        (capacity (params := S1_params)
           (ref_base (bucket_storage_ref_of S1_storage)))
  ∧ (slot_addr (current_ (bucket_storage_ref_end (params := S1_params)
                            (bucket_storage_ref_of S1_storage)))
     = one_past_last_slot (params := S1_params)
         (bucket_storage_ref_data (bucket_storage_ref_of S1_storage))
         (num_buckets (ref_base (bucket_storage_ref_of S1_storage)))
     ↔ num_buckets (ref_base (bucket_storage_ref_of S1_storage)) = 0
       ∨ BucketSize (storage_params := S1_params) = 1)
  ∧ (slot_addr (current_ (bucket_storage_ref_end_const (params := S1_params)
                            (bucket_storage_ref_of S1_storage)))
     = one_past_last_slot (params := S1_params)
         (bucket_storage_ref_data_const (bucket_storage_ref_of S1_storage))
         (num_buckets (ref_base (bucket_storage_ref_of S1_storage)))
     ↔ num_buckets (ref_base (bucket_storage_ref_of S1_storage)) = 0
       ∨ BucketSize (storage_params := S1_params) = 1).
Proof.
  apply (end_is_capacity_buckets_past_data (params := S1_params)
           (bucket_storage_ref_of S1_storage)).
  - cbn. lia.
  - cbn. lia.
Defined.

(** C2, as first stated, fails when a bucket has more than one slot.  In
    scenario S1 the buffer is three buckets of four slots of four bytes at
    4096: its last slot, of index 11, is at 4140 and one past it is 4144,
    while both overloads of [end()] hold 4288, twelve buckets past the
    base. *)
Lemma end_is_not_one_past_last_slot_S1 :
  num_buckets (ref_base (bucket_storage_ref_of S1_storage)) = 3
  ∧ capacity (params := S1_params) (ref_base (bucket_storage_ref_of S1_storage))
    = 12
  ∧ nth_slot_addr (params := S1_params)
      (bucket_storage_ref_data (bucket_storage_ref_of S1_storage)) 11 = 4140
  ∧ one_past_last_slot (params := S1_params)
      (bucket_storage_ref_data (bucket_storage_ref_of S1_storage))
      (num_buckets (ref_base (bucket_storage_ref_of S1_storage))) = 4144
  ∧ slot_addr (current_ (bucket_storage_ref_end (params := S1_params)
                           (bucket_storage_ref_of S1_storage))) = 4288
  ∧ slot_addr (current_ (bucket_storage_ref_end_const (params := S1_params)
                           (bucket_storage_ref_of S1_storage))) = 4288
  ∧ slot_addr (current_ (bucket_storage_ref_end (params := S1_params)
                           (bucket_storage_ref_of S1_storage)))
    ≠ one_past_last_slot (params := S1_params)
        (bucket_storage_ref_data (bucket_storage_ref_of S1_storage))
        (num_buckets (ref_base (bucket_storage_ref_of S1_storage))).
Proof. repeat split; try reflexivity. vm_compute. discriminate. Qed.

Lemma deallocation_matches_allocation_S1 :
  bucket_deleter_ S1_storage
  = CustomDeleter (capacity (params := S1_params) (storage_base S1_storage))
      (allocator_ S1_storage)
  ∧ get_deleter (buckets_ S1_storage) = bucket_deleter_ S1_storage
  ∧ allocator_ S1_storage = ()
  ∧ [Allocate () 12 (BucketPtr 4096)]
    = [] ++ [Allocate () (capacity (params := S1_params) (storage_base S1_storage))
               (bucket_storage_data S1_storage)]
  ∧ ∀ d'' : @device Z unit,
      alloc_trace (bucket_storage_destroy S1_storage d'')
      = alloc_trace d''
        ++ (if decide (bucket_addr (bucket_storage_data S1_storage) = 0) then []
            else [Deallocate () (bucket_storage_data S1_storage)
                    (capacity (params := S1_params) (storage_base S1_storage))]).
Proof.
  apply (deallocation_matches_allocation (params := S1_params)
           (alloc := arena_allocator) 3 () fresh_device S1_storage
           (Device ∅ ∅ [Allocate () 12 (BucketPtr 4096)])).
  reflexivity.
Defined.

Lemma ref_is_stable_S1 :
  bucket_storage_ref_data (bucket_storage_ref_of S1_storage)
  = bucket_storage_ref_data (bucket_storage_ref_new 3 (BucketPtr 4096))
  ∧ num_buckets (ref_base (bucket_storage_ref_of S1_storage))
    = num_buckets (ref_base (bucket_storage_ref_new 3 (BucketPtr 4096)))
  ∧ bucket_storage_ref_of S1_storage
    = BucketStorageRef (BucketStorageBase (bucket_extent (storage_base S1_storage)))
        (bucket_storage_data S1_storage)
  ∧ bucket_storage_ref_data (bucket_storage_ref_of S1_storage)
    = bucket_storage_data S1_storage
  ∧ bucket_extent (ref_base (bucket_storage_ref_of S1_storage))
    = bucket_extent (storage_base S1_storage)
  ∧ num_buckets (ref_base (bucket_storage_ref_of S1_storage))
    = num_buckets (storage_base S1_storage).
Proof.
  apply (ref_is_stable S1_storage (bucket_storage_ref_of S1_storage)
           (bucket_storage_ref_new 3 (BucketPtr 4096)));
    reflexivity.
Defined.

(** ** The further properties on the scenarios *)

Lemma end_differs_from_every_slot_S1 :
  iterator_ne
    (bucket_storage_ref_end (params := S1_params) (bucket_storage_ref_of S1_storage))
    (Iterator (slot_ptr_add (params := S1_params)
                 (reinterpret_cast_value_ptr
                    (bucket_storage_ref_data (bucket_storage_ref_of S1_storage)))
                 47))
  = true
  ∧ iterator_ne
      (bucket_storage_ref_end_const (params := S1_params)
         (bucket_storage_ref_of S1_storage))
      (Iterator (slot_ptr_add (params := S1_params)
                   (reinterpret_cast_value_ptr
                      (bucket_storage_ref_data_const
                         (bucket_storage_ref_of S1_storage)))
                   47))
    = true.
Proof.
  apply (end_differs_from_every_slot (params := S1_params)
           (bucket_storage_ref_of S1_storage) 47).
  - cbn. lia.
  - cbn. lia.
  - unfold capacity, num_buckets. cbn. lia.
Defined.

Lemma end_is_data_iff_empty_S2 :
  iterator_eq
    (bucket_storage_ref_end (params := S2_params) (bucket_storage_ref_of S2_storage))
    (Iterator (reinterpret_cast_value_ptr
                 (bucket_storage_ref_data (bucket_storage_ref_of S2_storage))))
  = true
  ↔ num_buckets (ref_base (bucket_storage_ref_of S2_storage)) = 0.
Proof.
  apply (end_is_data_iff_empty (params := S2_params)
           (bucket_storage_ref_of S2_storage)).
  - cbn. lia.
  - cbn. lia.
Defined.


Lemma index_misaligned_base_undefined_S1 :
  bucket_storage_ref_index (params := S1_params)
    (bucket_storage_ref_new 3 (BucketPtr 4100)) 0 (∅ : gmap Z Z) = None.
Proof.
  apply (index_misaligned_base_undefined (params := S1_params)
           (bucket_storage_ref_new 3 (BucketPtr 4100)) 0 (∅ : gmap Z Z)).
  - cbn. lia.
  - cbn. lia.
  - vm_compute. lia.
Defined.

Lemma index_after_slot_write_pair :
  bucket_storage_ref_index (params := pair_params) pair_ref 1
    (iterator_assign
       (Iterator (bucket_storage_ref_slot (params := pair_params) pair_ref 1 1))
       99 pair_heap)
  = Some (<[Z.to_nat 1 := 99]> [12; 13]).
Proof.
  apply (index_after_slot_write (params := pair_params) pair_ref 1 1 99
           pair_heap [12; 13]).
  - cbn. lia.
  - cbn. lia.
  - reflexivity.
Defined.

Lemma index_other_bucket_unchanged_pair :
  bucket_storage_ref_index (params := pair_params) pair_ref 1
    (iterator_assign
       (Iterator (bucket_storage_ref_slot (params := pair_params) pair_ref 0 1))
       99 pair_heap)
  = bucket_storage_ref_index (params := pair_params) pair_ref 1 pair_heap.
Proof.
  apply (index_other_bucket_unchanged (params := pair_params) pair_ref 0 1 1 99
           pair_heap).
  - cbn. lia.
  - cbn. lia.
  - lia.
Defined.

Lemma lifecycle_allocator_calls_S1 :
  alloc_trace
    (bucket_storage_destroy S1_storage
       (run_host_calls (params := S1_params) S1_storage
          [CallInitializeAsync 0 0%N; CallStreamWait 0%N;
           CallInitialize 65535 1%N]
          (Device ∅ ∅ [Allocate () 12 (BucketPtr 4096)])))
  = alloc_trace fresh_device
    ++ Allocate () (capacity (params := S1_params) (storage_base S1_storage))
         (bucket_storage_data S1_storage)
       :: (if decide (bucket_addr (bucket_storage_data S1_storage) = 0) then []
           else [Deallocate () (bucket_storage_data S1_storage)
                   (capacity (params := S1_params) (storage_base S1_storage))])
  ∧ heap
      (bucket_storage_destroy S1_storage
         (run_host_calls (params := S1_params) S1_storage
            [CallInitializeAsync 0 0%N; CallStreamWait 0%N;
             CallInitialize 65535 1%N]
            (Device ∅ ∅ [Allocate () 12 (BucketPtr 4096)])))
    = heap
        (run_host_calls (params := S1_params) S1_storage
           [CallInitializeAsync 0 0%N; CallStreamWait 0%N;
            CallInitialize 65535 1%N]
           (Device ∅ ∅ [Allocate () 12 (BucketPtr 4096)]))
  ∧ streams
      (bucket_storage_destroy S1_storage
         (run_host_calls (params := S1_params) S1_storage
            [CallInitializeAsync 0 0%N; CallStreamWait 0%N;
             CallInitialize 65535 1%N]
            (Device ∅ ∅ [Allocate () 12 (BucketPtr 4096)])))
    = streams
        (run_host_calls (params := S1_params) S1_storage
           [CallInitializeAsync 0 0%N; CallStreamWait 0%N;
            CallInitialize 65535 1%N]
           (Device ∅ ∅ [Allocate () 12 (BucketPtr 4096)])).
Proof.
  apply (lifecycle_allocator_calls (params := S1_params)
           (alloc := arena_allocator) 3 () fresh_device S1_storage
           (Device ∅ ∅ [Allocate () 12 (BucketPtr 4096)])
           [CallInitializeAsync 0 0%N; CallStreamWait 0%N;
            CallInitialize 65535 1%N]).
  reflexivity.
Defined.

Lemma initialize_leaves_other_streams_busy :
  pending
    (bucket_storage_initialize_async (params := S1_params) S1_storage 65535 1%N
       busy_device) 0%N
  = pending busy_device 0%N
  ∧ pending
      (bucket_storage_initialize (params := S1_params) S1_storage 65535 1%N
         busy_device) 0%N
    = pending busy_device 0%N
  ∧ alloc_trace
      (bucket_storage_initialize_async (params := S1_params) S1_storage 65535
         1%N busy_device)
    = alloc_trace busy_device
  ∧ alloc_trace
      (bucket_storage_initialize (params := S1_params) S1_storage 65535 1%N
         busy_device)
    = alloc_trace busy_device.
Proof.
  apply (initialize_leaves_other_streams (params := S1_params) S1_storage 65535
           1%N 0%N busy_device).
  lia.
Defined.

Lemma initialize_changes_only_its_slots_S1 :
  heap (bucket_storage_initialize (params := S1_params) S1_storage 65535 0%N
          fresh_device) !! 4144
  = foldl (run_work (params := S1_params)) (heap fresh_device)
      (pending fresh_device 0%N) !! 4144
  ∧ heap (stream_wait (params := S1_params) 0%N
            (bucket_storage_initialize_async (params := S1_params) S1_storage
               65535 0%N fresh_device)) !! 4144
    = heap (stream_wait (params := S1_params) 0%N fresh_device) !! 4144.
Proof.
  apply (initialize_changes_only_its_slots (params := S1_params) S1_storage
           65535 0%N fresh_device 4144).
  intros i Hi. unfold capacity, num_buckets in Hi. cbn in Hi.
  unfold nth_slot_addr. cbn. lia.
Defined.

Lemma initialize_never_writes_end_S1 :
  iterator_deref
    (bucket_storage_ref_end (params := S1_params) (bucket_storage_ref_of S1_storage))
    (heap (bucket_storage_initialize (params := S1_params) S1_storage 65535 0%N
             fresh_device))
  = iterator_deref
      (bucket_storage_ref_end (params := S1_params)
         (bucket_storage_ref_of S1_storage))
      (foldl (run_work (params := S1_params)) (heap fresh_device)
         (pending fresh_device 0%N)).
Proof.
  apply (initialize_never_writes_end (params := S1_params) S1_storage 65535 0%N
           fresh_device).
  - cbn. lia.
  - cbn. lia.
Defined.

Lemma initialize_leaves_allocated_tail_S1 :
  (∃ n p,
     last [Allocate () 12 (BucketPtr 4096)] = Some (Allocate () n p)
     ∧ bucket_addr p
       ≤ nth_slot_addr (params := S1_params) (bucket_storage_data S1_storage) 12
     ∧ nth_slot_addr (params := S1_params) (bucket_storage_data S1_storage) 12
       + sizeof_T (storage_params := S1_params)
       ≤ bucket_addr (bucket_ptr_add (params := S1_params) p n))
  ∧ heap (bucket_storage_initialize (params := S1_params) S1_storage 65535 0%N
            fresh_device)
      !! nth_slot_addr (params := S1_params) (bucket_storage_data S1_storage) 12
    = foldl (run_work (params := S1_params)) (heap fresh_device)
        (pending fresh_device 0%N)
        !! nth_slot_addr (params := S1_params) (bucket_storage_data S1_storage) 12.
Proof.
  apply (initialize_leaves_allocated_tail (params := S1_params)
           (alloc := arena_allocator) 3 () fresh_device S1_storage
           (Device ∅ ∅ [Allocate () 12 (BucketPtr 4096)]) 65535 0%N
           fresh_device 12).
  - reflexivity.
  - cbn. lia.
  - cbn. lia.
  - lia.
  - unfold capacity, num_buckets. cbn. lia.
Defined.
